(** * Route optimization engine (src/services/optimization.js)

    A shallow embedding of the route optimization service: greedy nearest
    neighbour construction, bounded 2-opt refinement, route statistics and
    cheapest insertion.  JavaScript numbers are modelled as exact rationals
    [Q]; [Infinity] (the initial minimum of the argmin loops) as [None] in
    an [option Q].  The distance function [calculateDistance] is imported
    from [../utils/distance], which is not part of the sources; the
    definitions below are parametric in it. *)

From Stdlib Require Import String QArith Qround Qabs Lqa ZArith List Permutation Bool Lia.
Import ListNotations.


(** ** Data model *)

Record Point := mkPoint { lat : Q; lng : Q }.

(** A store (stop): an opaque id and its coordinates; other caller metadata
    is carried through untouched and does not influence the algorithms. *)
Record Stop := mkStop { id : string; coordinates : Point }.

Definition Qlt_bool (x y : Q) : bool := negb (Qle_bool y x).

(** [d < m] where [m = None] stands for [Infinity]. *)
Definition lt_inf (d : Q) (m : option Q) : bool :=
  match m with
  | None => true
  | Some m => Qlt_bool d m
  end.

(** JavaScript [Math.round]: round half up, i.e. [floor (x + 0.5)]. *)
Definition Math_round (x : Q) : Z := Qfloor (x + (1 # 2)).

(** ** JavaScript [Set] of ids

    A JavaScript [Set] iterates in insertion order; [add] of a present
    element keeps its position; [delete] removes it. *)
Definition set_has (x : string) (s : list string) : bool :=
  existsb (String.eqb x) s.

Definition set_add (x : string) (s : list string) : list string :=
  if set_has x s then s else s ++ [x].

Definition new_Set (l : list string) : list string :=
  fold_left (fun s x => set_add x s) l [].

Definition set_delete (x : string) (s : list string) : list string :=
  filter (fun y => negb (String.eqb y x)) s.

(** [stores.find(s => s.id === storeId)] *)
Definition find_by_id (stores : list Stop) (storeId : string) : option Stop :=
  find (fun s => String.eqb (id s) storeId) stores.

Section Optimization.

Variable calculateDistance : Q -> Q -> Q -> Q -> Q.

Definition dist (a b : Point) : Q :=
  calculateDistance (lat a) (lng a) (lat b) (lng b).

(** ** optimizeRouteGreedy *)

(** The [for (const storeId of unvisited)] loop: the first store at strictly
    smaller distance than the running minimum replaces the candidate. *)
Fixpoint scan_nearest (stores : list Stop) (current : Point)
    (ids : list string) (nearestStore : option Stop) (minDistance : option Q)
    : option Stop :=
  match ids with
  | [] => nearestStore
  | storeId :: rest =>
      match find_by_id stores storeId with
      | None => scan_nearest stores current rest nearestStore minDistance
      | Some store =>
          let distance := dist current (coordinates store) in
          if lt_inf distance minDistance
          then scan_nearest stores current rest (Some store) (Some distance)
          else scan_nearest stores current rest nearestStore minDistance
      end
  end.

(** The [while (unvisited.size > 0)] loop.  [fuel] bounds the number of
    iterations; it is started at the size of [unvisited], and every
    iteration deletes one element of [unvisited] (lemma
    [greedy_loop_perm] below shows the bound is never reached early). *)
Fixpoint greedy_loop (fuel : nat) (stores : list Stop) (current : Point)
    (unvisited : list string) (route : list Stop) : list Stop :=
  match unvisited with
  | [] => route
  | _ :: _ =>
      match fuel with
      | O => route
      | S fuel' =>
          match scan_nearest stores current unvisited None None with
          | Some nearestStore =>
              greedy_loop fuel' stores (coordinates nearestStore)
                (set_delete (id nearestStore) unvisited) (route ++ [nearestStore])
          | None => route
          end
      end
  end.

Definition optimizeRouteGreedy (currentLocation : Point) (stores : list Stop)
    : list Stop :=
  match stores with
  | [] => []
  | [s] => [s]
  | _ =>
      let unvisited := new_Set (map id stores) in
      greedy_loop (length unvisited) stores currentLocation unvisited []
  end.

(** ** optimize2Opt *)

Definition getSegmentDistance (route : list Stop) (i j : nat) : Q :=
  if orb (length route <=? i)%nat (length route <=? j)%nat then 0
  else
    match nth_error route i, nth_error route j with
    | Some a, Some b => dist (coordinates a) (coordinates b)
    | _, _ => 0
    end.

(** [[...r.slice(0, i+1), ...r.slice(i+1, j+1).reverse(), ...r.slice(j+1)]] *)
Definition reverse_segment (r : list Stop) (i j : nat) : list Stop :=
  firstn (i + 1) r ++ rev (firstn (j + 1 - (i + 1)) (skipn (i + 1) r))
    ++ skipn (j + 1) r.

(** [const currentDist] and [const swappedDist] of the loop body; the
    index of the edge after [j] is [(j + 1) % currentRoute.length]. *)
Definition current_dist (currentRoute : list Stop) (i j : nat) : Q :=
  getSegmentDistance currentRoute i (i + 1) +
  getSegmentDistance currentRoute j (Nat.modulo (j + 1) (length currentRoute)).

Definition swapped_dist (currentRoute : list Stop) (i j : nat) : Q :=
  getSegmentDistance currentRoute i j +
  getSegmentDistance currentRoute (i + 1) (Nat.modulo (j + 1) (length currentRoute)).

(** [if (swappedDist < currentDist)] *)
Definition swap_improves (currentRoute : list Stop) (i j : nat) : bool :=
  Qlt_bool (swapped_dist currentRoute i j) (current_dist currentRoute i j).

(** The inner [for (let j = i + 2; j < currentRoute.length; j++)] loop;
    [k] is the number of iterations left.  Returns the route and the
    [improved] flag. *)
Fixpoint inner_loop (currentRoute : list Stop) (i j k : nat) (improved : bool)
    : list Stop * bool :=
  match k with
  | O => (currentRoute, improved)
  | S k' =>
      if swap_improves currentRoute i j
      then inner_loop (reverse_segment currentRoute i j) i (S j) k' true
      else inner_loop currentRoute i (S j) k' improved
  end.

(** The outer [for (let i = 0; i < currentRoute.length - 2; i++)] loop. *)
Fixpoint outer_loop (currentRoute : list Stop) (i k : nat) (improved : bool)
    : list Stop * bool :=
  match k with
  | O => (currentRoute, improved)
  | S k' =>
      let (r', imp') :=
        inner_loop currentRoute i (i + 2) (length currentRoute - (i + 2)) improved in
      outer_loop r' (S i) k' imp'
  end.

(** One pass of the [while] loop body, starting with [improved = false]. *)
Definition pass (currentRoute : list Stop) : list Stop * bool :=
  outer_loop currentRoute 0 (length currentRoute - 2) false.

(** [while (improved && iterations < maxIterations)]; [iters] is the number
    of passes still allowed. *)
Fixpoint passes (iters : nat) (currentRoute : list Stop) : list Stop :=
  match iters with
  | O => currentRoute
  | S iters' =>
      let (r', improved) := pass currentRoute in
      if improved then passes iters' r' else r'
  end.

Definition optimize2Opt (route : list Stop) (maxIterations : nat) : list Stop :=
  if (length route <? 4)%nat then route else passes maxIterations route.

(** ** calculateTotalDistance *)

Fixpoint total_loop (total : Q) (current : Point) (route : list Stop) : Q :=
  match route with
  | [] => total
  | store :: rest =>
      total_loop (total + dist current (coordinates store)) (coordinates store) rest
  end.

Definition calculateTotalDistance (currentLocation : Point) (route : list Stop) : Q :=
  match route with
  | [] => 0
  | _ => total_loop 0 currentLocation route
  end.

(** ** calculateRouteStats *)

Record RouteStats := mkRouteStats {
  totalDistance : Q;
  totalTime : Z;
  totalCost : Q;
  stops : nat
}.

(** The mixed-mode [for (const store of route)] loop over segments. *)
Fixpoint mixed_loop (current : Point) (route : list Stop) (totalTime totalCost : Q)
    : Q * Q :=
  match route with
  | [] => (totalTime, totalCost)
  | store :: rest =>
      let segmentDistance := dist current (coordinates store) in
      if Qlt_bool segmentDistance (1 # 2)
      then mixed_loop (coordinates store) rest (totalTime + segmentDistance / 3 * 60) totalCost
      else mixed_loop (coordinates store) rest (totalTime + 15) (totalCost + 3)
  end.

(** [transportMode = None] is an omitted argument, defaulting to ['mixed']. *)
Definition calculateRouteStats (currentLocation : Point) (route : list Stop)
    (transportMode : option string) : RouteStats :=
  let mode := match transportMode with None => "mixed"%string | Some m => m end in
  match route with
  | [] => mkRouteStats 0 0 0 0
  | _ =>
      let totalDistance := calculateTotalDistance currentLocation route in
      let '(totalTime, totalCost) :=
        if String.eqb mode "walking"%string then (totalDistance / 3 * 60, 0)
        else if String.eqb mode "subway"%string then
          (inject_Z (Z.of_nat (length route)) * 15 + 20,
           (inject_Z (Z.of_nat (length route)) + 1) * 3)
        else mixed_loop currentLocation route 0 0 in
      mkRouteStats
        (inject_Z (Math_round (totalDistance * 100)) / 100)
        (Math_round totalTime)
        (inject_Z (Math_round (totalCost * 100)) / 100)
        (length route)
  end.

(** ** findOptimalInsertionPoint *)

Definition test_route (route : list Stop) (newStore : Stop) (i : nat) : list Stop :=
  firstn i route ++ newStore :: skipn i route.

Definition insertion_increase (currentLocation : Point) (route : list Stop)
    (newStore : Stop) (i : nat) : Q :=
  calculateTotalDistance currentLocation (test_route route newStore i) -
  calculateTotalDistance currentLocation route.

(** [for (let i = 0; i <= route.length; i++)]; [k] iterations left. *)
Fixpoint insertion_loop (currentLocation : Point) (route : list Stop) (newStore : Stop)
    (i k : nat) (minIncrease : option Q) (bestIndex : nat) : nat :=
  match k with
  | O => bestIndex
  | S k' =>
      let increase := insertion_increase currentLocation route newStore i in
      if lt_inf increase minIncrease
      then insertion_loop currentLocation route newStore (S i) k' (Some increase) i
      else insertion_loop currentLocation route newStore (S i) k' minIncrease bestIndex
  end.

Definition findOptimalInsertionPoint (currentLocation : Point) (route : list Stop)
    (newStore : Stop) : nat :=
  match route with
  | [] => 0
  | _ =>
      insertion_loop currentLocation route newStore 0 (S (length route)) None
        (length route)
  end.

End Optimization.

(** ** Reference descriptions used in the statements *)

(** The stops of [l] whose id occurs neither in [seen] nor earlier in [l]:
    the first stop bearing each id, in input order. *)
Fixpoint first_occ_aux (seen : list string) (l : list Stop) : list Stop :=
  match l with
  | [] => []
  | s :: rest =>
      if set_has (id s) seen then first_occ_aux seen rest
      else s :: first_occ_aux (seen ++ [id s]) rest
  end.

Definition first_occurrences (l : list Stop) : list Stop := first_occ_aux [] l.

(** The position reached after visiting the stops of [l] from [start]. *)
Definition last_point (start : Point) (l : list Stop) : Point :=
  fold_left (fun _ s => coordinates s) l start.

(** The tie-break rule of the nearest-neighbour step: [s] is an unvisited
    stop of [stores], no unvisited stop is nearer to [cur], and every
    unvisited stop listed before [s] in [stores] is strictly farther. *)
Definition nearest_choice (calculateDistance : Q -> Q -> Q -> Q -> Q)
    (stores : list Stop) (cur : Point) (visited : list string) (s : Stop) : Prop :=
  exists l1 l2,
    stores = l1 ++ s :: l2 /\ ~ In (id s) visited /\
    (forall t, In t l1 -> ~ In (id t) visited ->
       dist calculateDistance cur (coordinates s) < dist calculateDistance cur (coordinates t)) /\
    (forall t, In t l2 -> ~ In (id t) visited ->
       dist calculateDistance cur (coordinates s) <= dist calculateDistance cur (coordinates t)).

(** Every stop of the output [out] is a [nearest_choice] from the position
    reached by the stops before it, among the stops not yet visited. *)
Definition greedy_steps_ok (calculateDistance : Q -> Q -> Q -> Q -> Q)
    (start : Point) (stores out : list Stop) : Prop :=
  forall k s, nth_error out k = Some s ->
    nearest_choice calculateDistance stores (last_point start (firstn k out))
      (map id (firstn k out)) s.

(** The mixed-mode policy in the words of the spec: the distances of the
    successive segments [start -> route[0] -> ... -> route[n-1]]; a segment
    strictly below 0.5 mile is walked at 3 mph for free, any other segment
    costs a flat 15 minutes and one 3.00 fare; contributions are summed. *)
Fixpoint segment_distances (calculateDistance : Q -> Q -> Q -> Q -> Q)
    (cur : Point) (route : list Stop) : list Q :=
  match route with
  | [] => []
  | s :: rest =>
      dist calculateDistance cur (coordinates s)
        :: segment_distances calculateDistance (coordinates s) rest
  end.

Definition mixed_segment_time (d : Q) : Q := if Qlt_bool d (1 # 2) then d / 3 * 60 else 15.

Definition mixed_segment_cost (d : Q) : Q := if Qlt_bool d (1 # 2) then 0 else 3.

Definition Qsum (l : list Q) : Q := fold_right Qplus 0 l.

(** The length of the polyline through the points [ps], leg by leg. *)
Fixpoint path_len (calculateDistance : Q -> Q -> Q -> Q -> Q) (ps : list Point) : Q :=
  match ps with
  | p :: ((q :: _) as rest) => dist calculateDistance p q + path_len calculateDistance rest
  | _ => 0
  end.

(** ** A distance function for concrete runs

    Modelled from the spec: [calculateDistance] of [src/utils/distance.js]
    (not among the sources).  The spec allows an equirectangular
    projection scaled by the cosine of the mean latitude; near the equator
    (all points below 0.1 degree of latitude) the cosine is 1 to within
    1e-6, a degree is about 69 miles, and the square root is truncated to
    1e-6 mile, as a floating-point computation would round it. *)
Definition flat_distance (lat1 lng1 lat2 lng2 : Q) : Q :=
  let dy := (lat2 - lat1) * 69 in
  let dx := (lng2 - lng1) * 69 in
  inject_Z (Z.sqrt (Qfloor ((dx * dx + dy * dy) * inject_Z (10 ^ 12))))
    / inject_Z (10 ^ 6).

(** A stop at [(x / 100, y / 100)] degrees. *)
Definition stop_at (name : string) (x y : Z) : Stop :=
  mkStop name (mkPoint (x # 100) (y # 100)).

Definition origin : Point := mkPoint 0 0.

Definition route_c1 : list Stop :=
  [stop_at "A"%string 8 7; stop_at "B"%string 4 8; stop_at "C"%string 7 2; stop_at "D"%string 1 0].

Definition route_c3 : list Stop :=
  [stop_at "P"%string 1 6; stop_at "Q"%string 0 8; stop_at "R"%string 6 7; stop_at "S"%string 1 2; stop_at "T"%string 4 8].

(** Four stops in order along a meridian. *)
Definition route_line : list Stop :=
  [stop_at "W"%string 1 0; stop_at "X"%string 2 0; stop_at "Y"%string 3 0; stop_at "Z"%string 4 0].

(** ** Proofs *)

(** A distance along a meridian: 69 miles per degree of latitude.  It is
    symmetric, non-negative and satisfies the triangle inequality, and is
    used to instantiate the statements that assume these properties. *)
Definition meridian_distance (lat1 lng1 lat2 lng2 : Q) : Q :=
  69 * Qabs (lat2 - lat1).

Section Proofs.

Variable calculateDistance : Q -> Q -> Q -> Q -> Q.

(** *** 2-opt moves permute the route *)

Lemma reverse_segment_perm (r : list Stop) (i j : nat) :
  (i <= j)%nat -> Permutation (reverse_segment r i j) r.
Proof.
  intros Hij. unfold reverse_segment.
  transitivity (firstn (i + 1) r ++ skipn (i + 1) r);
    [| rewrite firstn_skipn; reflexivity].
  apply Permutation_app_head.
  transitivity (firstn (j + 1 - (i + 1)) (skipn (i + 1) r)
                ++ skipn (j + 1 - (i + 1)) (skipn (i + 1) r));
    [| rewrite firstn_skipn; reflexivity].
  rewrite skipn_skipn.
  replace (j + 1 - (i + 1) + (i + 1))%nat with (j + 1)%nat by lia.
  apply Permutation_app_tail. apply Permutation_sym, Permutation_rev.
Qed.

Lemma inner_loop_perm (r : list Stop) (i j k : nat) (imp : bool) :
  (i <= j)%nat -> Permutation (fst (inner_loop calculateDistance r i j k imp)) r.
Proof.
  revert r j imp. induction k as [|k IH]; intros r j imp Hij; simpl.
  - reflexivity.
  - destruct (swap_improves calculateDistance r i j).
    + rewrite IH by lia. apply reverse_segment_perm; lia.
    + apply IH; lia.
Qed.

Lemma outer_loop_perm (r : list Stop) (i k : nat) (imp : bool) :
  Permutation (fst (outer_loop calculateDistance r i k imp)) r.
Proof.
  revert r i imp. induction k as [|k IH]; intros r i imp; simpl.
  - reflexivity.
  - pose proof (inner_loop_perm r i (i + 2) (length r - (i + 2)) imp) as Hin.
    destruct (inner_loop calculateDistance r i (i + 2) (length r - (i + 2)) imp)
      as [r' imp'] eqn:E.
    simpl in Hin. rewrite IH. apply Hin; lia.
Qed.

Lemma passes_perm (m : nat) (r : list Stop) :
  Permutation (passes calculateDistance m r) r.
Proof.
  revert r. induction m as [|m IH]; intros r; simpl.
  - reflexivity.
  - unfold pass. pose proof (outer_loop_perm r 0 (length r - 2) false) as Ho.
    destruct (outer_loop calculateDistance r 0 (length r - 2) false) as [r' imp] eqn:E.
    simpl in Ho. destruct imp; [rewrite IH|]; exact Ho.
Qed.

Lemma optimize2Opt_perm (r : list Stop) (m : nat) :
  Permutation (optimize2Opt calculateDistance r m) r.
Proof.
  unfold optimize2Opt. destruct (length r <? 4)%nat.
  - reflexivity.
  - apply passes_perm.
Qed.

(** *** Sets of ids and the first occurrences *)

Lemma set_has_In (x : string) (s : list string) :
  set_has x s = true <-> In x s.
Proof.
  unfold set_has. rewrite existsb_exists. split.
  - intros (y & Hy & E). apply String.eqb_eq in E. subst. exact Hy.
  - intros H. exists x. split; [exact H | apply String.eqb_refl].
Qed.

Lemma set_has_false (x : string) (s : list string) :
  set_has x s = false <-> ~ In x s.
Proof.
  rewrite <- set_has_In. destruct (set_has x s); split; congruence.
Qed.

Lemma new_Set_first_occ (l : list Stop) (acc : list string) :
  fold_left (fun s x => set_add x s) (map id l) acc
  = acc ++ map id (first_occ_aux acc l).
Proof.
  revert acc. induction l as [|t l IH]; intros acc; simpl.
  - rewrite app_nil_r. reflexivity.
  - unfold set_add at 2. destruct (set_has (id t) acc).
    + apply IH.
    + rewrite IH. simpl. rewrite <- app_assoc. reflexivity.
Qed.

Lemma first_occ_fresh (l : list Stop) (seen : list string) (t : Stop) :
  In t (first_occ_aux seen l) -> ~ In (id t) seen.
Proof.
  revert seen. induction l as [|s l IH]; intros seen; simpl; [tauto|].
  destruct (set_has (id s) seen) eqn:E.
  - apply IH.
  - intros [<- | H].
    + apply set_has_false. exact E.
    + intros Hin. apply (IH _ H). apply in_or_app. left. exact Hin.
Qed.

Lemma first_occ_NoDup (l : list Stop) (seen : list string) :
  NoDup (map id (first_occ_aux seen l)).
Proof.
  revert seen. induction l as [|s l IH]; intros seen; simpl; [constructor|].
  destruct (set_has (id s) seen) eqn:E; [apply IH|].
  simpl. constructor; [|apply IH].
  intros Hin. apply in_map_iff in Hin as (t & Ht & Hin).
  apply (first_occ_fresh _ _ _ Hin). rewrite Ht.
  apply in_or_app. right. left. reflexivity.
Qed.

Lemma first_occ_In (l : list Stop) (seen : list string) (x : string) :
  In x (map id (first_occ_aux seen l)) <-> In x (map id l) /\ ~ In x seen.
Proof.
  revert seen. induction l as [|s l IH]; intros seen; simpl; [tauto|].
  destruct (set_has (id s) seen) eqn:E.
  - apply set_has_In in E. rewrite IH. split.
    + tauto.
    + intros [[<- | H] Hn]; [contradiction | tauto].
  - apply set_has_false in E. simpl. rewrite IH. rewrite in_app_iff. simpl.
    split.
    + intros [<- | [H Hn]]; [tauto|]. split; [tauto|]. tauto.
    + intros [[<- | H] Hn]; [tauto|].
      destruct (String.eqb_spec (id s) x) as [<- | Hne]; [tauto|].
      right. split; [exact H|]. intros [H' | [H' | []]]; [tauto | congruence].
Qed.

Lemma find_by_id_id (stores : list Stop) (sid : string) (s : Stop) :
  find_by_id stores sid = Some s -> id s = sid.
Proof.
  unfold find_by_id. intros H. apply find_some in H as [_ H].
  apply String.eqb_eq. exact H.
Qed.

Lemma find_by_id_In (stores : list Stop) (sid : string) (s : Stop) :
  find_by_id stores sid = Some s -> In s stores.
Proof.
  unfold find_by_id. intros H. apply find_some in H as [H _]. exact H.
Qed.

Lemma find_by_id_exists (stores : list Stop) (sid : string) :
  In sid (map id stores) -> find_by_id stores sid <> None.
Proof.
  intros Hin. apply in_map_iff in Hin as (t & Ht & Hin).
  unfold find_by_id. intros Hn.
  apply (find_none _ _ Hn) in Hin. rewrite Ht, String.eqb_refl in Hin.
  discriminate.
Qed.

Lemma first_occ_canon (l : list Stop) (seen : list string) (t : Stop) :
  In t (first_occ_aux seen l) -> find_by_id l (id t) = Some t.
Proof.
  revert seen. induction l as [|s l IH]; intros seen; simpl; [tauto|].
  unfold find_by_id. simpl.
  destruct (set_has (id s) seen) eqn:E.
  - intros Hin. pose proof (first_occ_fresh _ _ _ Hin) as Hf.
    destruct (String.eqb_spec (id s) (id t)) as [Heq | Hne].
    + apply set_has_In in E. rewrite Heq in E. contradiction.
    + apply (IH seen Hin).
  - intros [<- | Hin]; [rewrite String.eqb_refl; reflexivity|].
    pose proof (first_occ_fresh _ _ _ Hin) as Hf.
    destruct (String.eqb_spec (id s) (id t)) as [Heq | Hne].
    + exfalso. apply Hf. apply in_or_app. right. left. exact Heq.
    + apply (IH _ Hin).
Qed.

Lemma first_occ_NoDup_id (l : list Stop) (seen : list string) :
  NoDup (map id l) -> (forall t, In t l -> ~ In (id t) seen) ->
  first_occ_aux seen l = l.
Proof.
  revert seen. induction l as [|s l IH]; intros seen Hnd Hfr; simpl; [reflexivity|].
  inversion Hnd as [|? ? Hs Hnd']; subst.
  destruct (set_has (id s) seen) eqn:E.
  - apply set_has_In in E. exfalso. apply (Hfr s); [left; reflexivity | exact E].
  - f_equal. apply IH; [exact Hnd'|].
    intros t Ht Hin. apply in_app_iff in Hin as [Hin | [Heq | []]].
    + apply (Hfr t); [right; exact Ht | exact Hin].
    + apply Hs. rewrite Heq. apply in_map. exact Ht.
Qed.

Lemma set_delete_perm (x : string) (u : list string) :
  NoDup u -> In x u -> Permutation u (x :: set_delete x u).
Proof.
  induction u as [|y u IH]; intros Hnd Hin; [destruct Hin|].
  inversion Hnd as [|? ? Hy Hnd']; subst.
  unfold set_delete. simpl.
  destruct (String.eqb_spec y x) as [-> | Hne]; simpl.
  - constructor. fold (set_delete x u).
    assert (Hf : forall v, ~ In x v -> set_delete x v = v).
    { induction v as [|z v IHv]; intros Hv; [reflexivity|].
      unfold set_delete. simpl.
      destruct (String.eqb_spec z x) as [-> | _].
      - exfalso. apply Hv. left. reflexivity.
      - simpl. f_equal. apply IHv. intros H. apply Hv. right. exact H. }
    rewrite Hf by exact Hy. reflexivity.
  - destruct Hin as [-> | Hin]; [congruence|].
    fold (set_delete x u).
    transitivity (y :: x :: set_delete x u).
    + constructor. apply IH; assumption.
    + constructor.
Qed.

Lemma set_delete_NoDup (x : string) (u : list string) :
  NoDup u -> NoDup (set_delete x u).
Proof. intros H. unfold set_delete. apply NoDup_filter. exact H. Qed.

Lemma set_delete_In (x y : string) (u : list string) :
  In y (set_delete x u) -> In y u.
Proof. unfold set_delete. rewrite filter_In. tauto. Qed.

(** *** The greedy loop visits each id of the set once *)

Lemma scan_nearest_some (stores : list Stop) (cur : Point) (ids : list string)
    (n : option Stop) (m : option Q) (s : Stop) :
  scan_nearest calculateDistance stores cur ids n m = Some s ->
  n = Some s \/ exists sid, In sid ids /\ find_by_id stores sid = Some s.
Proof.
  revert n m. induction ids as [|sid ids IH]; intros n m; simpl; [tauto|].
  destruct (find_by_id stores sid) as [st|] eqn:Ef.
  - destruct (lt_inf _ m).
    + intros H. destruct (IH _ _ H) as [[= <-] | (sid' & Hi & Hf)].
      * right. exists sid. tauto.
      * right. exists sid'. tauto.
    + intros H. destruct (IH _ _ H) as [Hn | (sid' & Hi & Hf)]; [tauto|].
      right. exists sid'. tauto.
  - intros H. destruct (IH _ _ H) as [Hn | (sid' & Hi & Hf)]; [tauto|].
    right. exists sid'. tauto.
Qed.

Lemma scan_nearest_keeps (stores : list Stop) (cur : Point) (ids : list string)
    (s0 : Stop) (m : option Q) :
  scan_nearest calculateDistance stores cur ids (Some s0) m <> None.
Proof.
  revert s0 m. induction ids as [|sid ids IH]; intros s0 m; simpl; [discriminate|].
  destruct (find_by_id stores sid); [destruct (lt_inf _ m)|]; apply IH.
Qed.

Lemma scan_nearest_found (stores : list Stop) (cur : Point) (ids : list string) :
  ids <> [] -> (forall sid, In sid ids -> find_by_id stores sid <> None) ->
  scan_nearest calculateDistance stores cur ids None None <> None.
Proof.
  destruct ids as [|sid ids]; intros Hne Hf; [congruence|]. simpl.
  destruct (find_by_id stores sid) as [st|] eqn:E.
  - simpl. apply scan_nearest_keeps.
  - exfalso. apply (Hf sid); [left; reflexivity | exact E].
Qed.

Lemma greedy_loop_perm (stores : list Stop) (fuel : nat) (cur : Point)
    (u : list string) (route : list Stop) :
  NoDup u ->
  (forall sid, In sid u -> find_by_id stores sid <> None) ->
  (forall s, In s route -> find_by_id stores (id s) = Some s) ->
  (length u <= fuel)%nat ->
  let out := greedy_loop calculateDistance fuel stores cur u route in
  Permutation (map id out) (map id route ++ u) /\
  (forall s, In s out -> find_by_id stores (id s) = Some s).
Proof.
  revert cur u route. induction fuel as [|fuel IH]; intros cur u route Hnd Hf Hr Hlen.
  - destruct u; [|simpl in Hlen; lia]. simpl. rewrite app_nil_r. split; [reflexivity | exact Hr].
  - destruct u as [|sid0 u0] eqn:Eu.
    + simpl. rewrite app_nil_r. split; [reflexivity | exact Hr].
    + rewrite <- Eu in *. cbn zeta.
      assert (Hne : u <> []) by (subst; discriminate).
      pose proof (scan_nearest_found stores cur u Hne Hf) as Hsc.
      replace (greedy_loop calculateDistance (S fuel) stores cur u route) with
        (match scan_nearest calculateDistance stores cur u None None with
         | Some nearestStore =>
             greedy_loop calculateDistance fuel stores (coordinates nearestStore)
               (set_delete (id nearestStore) u) (route ++ [nearestStore])
         | None => route
         end) by (subst; reflexivity).
      destruct (scan_nearest calculateDistance stores cur u None None) as [s|] eqn:Es;
        [|congruence].
      destruct (scan_nearest_some _ _ _ _ _ _ Es) as [[=] | (sid & Hsid & Hfs)].
      pose proof (find_by_id_id _ _ _ Hfs) as Hids. subst sid.
      pose proof (set_delete_perm (id s) u Hnd Hsid) as Hp.
      destruct (IH (coordinates s) (set_delete (id s) u) (route ++ [s])) as [IH1 IH2].
      * apply set_delete_NoDup. exact Hnd.
      * intros sid Hi. apply Hf. eapply set_delete_In. exact Hi.
      * intros t Ht. apply in_app_iff in Ht as [Ht | [<- | []]]; [apply Hr; exact Ht | exact Hfs].
      * apply Permutation_length in Hp. simpl in Hp. lia.
      * split; [|exact IH2].
        rewrite IH1, map_app. simpl. rewrite <- app_assoc. simpl.
        apply Permutation_app_head. symmetry. exact Hp.
Qed.

Lemma canonical_perm (stores l1 l2 : list Stop) :
  (forall s, In s l1 -> find_by_id stores (id s) = Some s) ->
  (forall s, In s l2 -> find_by_id stores (id s) = Some s) ->
  Permutation (map id l1) (map id l2) -> Permutation l1 l2.
Proof.
  intros H1 H2 Hp.
  set (canon := fun sid => match find_by_id stores sid with
                           | Some s => s
                           | None => mkStop sid (mkPoint 0 0)
                           end).
  assert (Hc : forall l, (forall s, In s l -> find_by_id stores (id s) = Some s) ->
                         map canon (map id l) = l).
  { intros l Hl. rewrite map_map. rewrite <- (map_id l) at 2. apply map_ext_in.
    intros s Hs. unfold canon. rewrite (Hl s Hs). reflexivity. }
  rewrite <- (Hc l1 H1), <- (Hc l2 H2). apply Permutation_map. exact Hp.
Qed.

Lemma optimizeRouteGreedy_first_occ (start : Point) (stores : list Stop) :
  Permutation (optimizeRouteGreedy calculateDistance start stores)
              (first_occurrences stores).
Proof.
  destruct stores as [|s0 [|s1 rest]] eqn:Est; [reflexivity | reflexivity|].
  rewrite <- Est.
  assert (Hu : new_Set (map id stores) = map id (first_occurrences stores))
    by (unfold new_Set, first_occurrences; rewrite new_Set_first_occ; reflexivity).
  replace (optimizeRouteGreedy calculateDistance start stores) with
    (greedy_loop calculateDistance (length (new_Set (map id stores))) stores start
       (new_Set (map id stores)) []) by (subst; reflexivity).
  rewrite Hu.
  destruct (greedy_loop_perm stores (length (map id (first_occurrences stores))) start
              (map id (first_occurrences stores)) []) as [H1 H2].
  - apply first_occ_NoDup.
  - intros sid Hi. apply find_by_id_exists. apply first_occ_In in Hi. tauto.
  - intros s [].
  - lia.
  - apply (canonical_perm stores); [exact H2| |exact H1].
    intros t Ht. apply first_occ_canon with (seen := []). exact Ht.
Qed.

(** *** Claims on the stop set *)

(** C4: with unique ids, the output of [optimizeRouteGreedy] has the same
    multiset of ids as its input, and the output of [optimize2Opt] is a
    permutation of its input route. *)
Theorem routes_preserve_stops :
  (forall (start : Point) (stores : list Stop),
      NoDup (map id stores) ->
      Permutation (map id (optimizeRouteGreedy calculateDistance start stores))
                  (map id stores)) /\
  (forall (route : list Stop) (maxIterations : nat),
      Permutation (optimize2Opt calculateDistance route maxIterations) route).
Proof.
  split.
  - intros start stores Hnd. apply Permutation_map.
    rewrite optimizeRouteGreedy_first_occ. unfold first_occurrences.
    rewrite first_occ_NoDup_id; [reflexivity | exact Hnd | intros t _ []].
  - apply optimize2Opt_perm.
Qed.

(** C9: with duplicate ids, [optimizeRouteGreedy] returns, in some order,
    exactly the first stop of the input bearing each id: one stop per
    distinct id, so as many stops as there are distinct ids. *)
Theorem optimizeRouteGreedy_duplicate_ids (start : Point) (stores : list Stop) :
  let out := optimizeRouteGreedy calculateDistance start stores in
  Permutation out (first_occurrences stores) /\
  NoDup (map id out) /\
  length out = length (nodup string_dec (map id stores)).
Proof.
  cbn zeta. pose proof (optimizeRouteGreedy_first_occ start stores) as Hp.
  split; [exact Hp|]. split.
  - apply (Permutation_NoDup (Permutation_map id (Permutation_sym Hp))).
    apply first_occ_NoDup.
  - rewrite (Permutation_length Hp), <- (length_map id).
    apply Permutation_length, NoDup_Permutation.
    + apply first_occ_NoDup.
    + apply NoDup_nodup.
    + intros x. rewrite nodup_In. unfold first_occurrences.
      rewrite first_occ_In. simpl. tauto.
Qed.

(** *** The nearest-neighbour step and its tie-break *)

Lemma Qlt_bool_iff (x y : Q) : Qlt_bool x y = true <-> x < y.
Proof.
  unfold Qlt_bool. rewrite negb_true_iff. split; intros H.
  - apply Qnot_le_lt. intros H'. apply Qle_bool_iff in H'. congruence.
  - destruct (Qle_bool y x) eqn:E; [|reflexivity].
    apply Qle_bool_iff in E. exfalso. exact (Qlt_not_le _ _ H E).
Qed.

Lemma Qlt_bool_false (x y : Q) : Qlt_bool x y = false -> y <= x.
Proof.
  unfold Qlt_bool. rewrite negb_false_iff. apply Qle_bool_iff.
Qed.

Lemma find_by_id_unique (stores : list Stop) (t : Stop) :
  NoDup (map id stores) -> In t stores -> find_by_id stores (id t) = Some t.
Proof.
  induction stores as [|x stores IH]; intros Hnd Hin; [destruct Hin|].
  inversion Hnd as [|? ? Hx Hnd']; subst. unfold find_by_id. simpl.
  destruct (String.eqb_spec (id x) (id t)) as [Heq | Hne].
  - destruct Hin as [-> | Hin]; [reflexivity|].
    exfalso. apply Hx. rewrite Heq. apply in_map. exact Hin.
  - destruct Hin as [-> | Hin]; [congruence|]. apply IH; assumption.
Qed.

Section Scan.

Variable cur : Point.
Let d (t : Stop) : Q := dist calculateDistance cur (coordinates t).

Lemma scan_argmin_from (stores L : list Stop) (b s : Stop) :
  (forall t, In t L -> find_by_id stores (id t) = Some t) ->
  scan_nearest calculateDistance stores cur (map id L) (Some b) (Some (d b)) = Some s ->
  (s = b /\ forall t, In t L -> d b <= d t) \/
  (exists L1 L2, L = L1 ++ s :: L2 /\ d s < d b /\
     (forall t, In t L1 -> d s < d t) /\ (forall t, In t L2 -> d s <= d t)).
Proof.
  revert b. induction L as [|t L IH]; intros b Hf Hs.
  - simpl in Hs. injection Hs as <-. left. split; [reflexivity | intros t []].
  - simpl in Hs. rewrite (Hf t (or_introl eq_refl)) in Hs. simpl in Hs.
    assert (Hf' : forall t', In t' L -> find_by_id stores (id t') = Some t')
      by (intros t' Ht'; apply Hf; right; exact Ht').
    destruct (Qlt_bool (dist calculateDistance cur (coordinates t)) (d b)) eqn:Elt.
    + apply Qlt_bool_iff in Elt.
      destruct (IH t Hf' Hs) as [[-> Hall] | (L1 & L2 & -> & Hlt & H1 & H2)].
      * right. exists [], L. split; [reflexivity|]. split; [exact Elt|].
        split; [intros ? []|exact Hall].
      * right. exists (t :: L1), L2. split; [reflexivity|].
        split; [apply Qlt_trans with (d t); assumption|]. split; [|exact H2].
        intros t' [<- | Ht']; [exact Hlt | apply H1; exact Ht'].
    + apply Qlt_bool_false in Elt.
      destruct (IH b Hf' Hs) as [[-> Hall] | (L1 & L2 & -> & Hlt & H1 & H2)].
      * left. split; [reflexivity|]. intros t' [<- | Ht']; [exact Elt | apply Hall; exact Ht'].
      * right. exists (t :: L1), L2. split; [reflexivity|]. split; [exact Hlt|].
        split; [|exact H2].
        intros t' [<- | Ht']; [apply Qlt_le_trans with (d b); assumption | apply H1; exact Ht'].
Qed.

Lemma scan_argmin (stores L : list Stop) (s : Stop) :
  (forall t, In t L -> find_by_id stores (id t) = Some t) ->
  scan_nearest calculateDistance stores cur (map id L) None None = Some s ->
  exists L1 L2, L = L1 ++ s :: L2 /\
    (forall t, In t L1 -> d s < d t) /\ (forall t, In t L2 -> d s <= d t).
Proof.
  destruct L as [|t L]; intros Hf Hs; [discriminate|].
  simpl in Hs. rewrite (Hf t (or_introl eq_refl)) in Hs. simpl in Hs.
  assert (Hf' : forall t', In t' L -> find_by_id stores (id t') = Some t')
    by (intros t' Ht'; apply Hf; right; exact Ht').
  destruct (scan_argmin_from stores L t s Hf' Hs)
    as [[-> Hall] | (L1 & L2 & -> & Hlt & H1 & H2)].
  - exists [], L. split; [reflexivity|]. split; [intros ? []|exact Hall].
  - exists (t :: L1), L2. split; [reflexivity|]. split; [|exact H2].
    intros t' [<- | Ht']; [exact Hlt | apply H1; exact Ht'].
Qed.

End Scan.

Lemma filter_split {A : Type} (f : A -> bool) (l L1 L2 : list A) (s : A) :
  filter f l = L1 ++ s :: L2 ->
  exists A1 A2, l = A1 ++ s :: A2 /\ filter f A1 = L1 /\ filter f A2 = L2.
Proof.
  revert L1. induction l as [|x l IH]; intros L1 H.
  - destruct L1; discriminate.
  - simpl in H. destruct (f x) eqn:Ef.
    + destruct L1 as [|y L1]; simpl in H; injection H as H1 H2.
      * subst. exists [], l. split; [reflexivity|]. split; reflexivity.
      * subst y. destruct (IH L1 H2) as (A1 & A2 & -> & HA1 & HA2).
        exists (x :: A1), A2. split; [reflexivity|]. simpl. rewrite Ef, HA1.
        split; [reflexivity | exact HA2].
    + destruct (IH L1 H) as (A1 & A2 & -> & HA1 & HA2).
      exists (x :: A1), A2. split; [reflexivity|]. simpl. rewrite Ef.
      split; [exact HA1 | exact HA2].
Qed.

Definition unvisited_in (route : list Stop) (t : Stop) : bool :=
  negb (set_has (id t) (map id route)).

Lemma unvisited_in_snoc (route : list Stop) (s t : Stop) :
  unvisited_in (route ++ [s]) t = unvisited_in route t && negb (String.eqb (id t) (id s)).
Proof.
  unfold unvisited_in, set_has. rewrite map_app, existsb_app. simpl.
  rewrite orb_false_r, negb_orb. reflexivity.
Qed.

Lemma set_delete_unvisited (stores route : list Stop) (s : Stop) :
  set_delete (id s) (map id (filter (unvisited_in route) stores))
  = map id (filter (unvisited_in (route ++ [s])) stores).
Proof.
  induction stores as [|t stores IH]; [reflexivity|].
  simpl. rewrite unvisited_in_snoc.
  destruct (unvisited_in route t); simpl; [|exact IH].
  unfold set_delete in *. simpl.
  destruct (String.eqb (id t) (id s)); simpl; [exact IH | f_equal; exact IH].
Qed.

Lemma greedy_steps_ok_snoc (start : Point) (stores route : list Stop) (s : Stop) :
  greedy_steps_ok calculateDistance start stores route ->
  nearest_choice calculateDistance stores (last_point start route) (map id route) s ->
  greedy_steps_ok calculateDistance start stores (route ++ [s]).
Proof.
  intros Hok Hs k t Hk.
  destruct (Nat.lt_ge_cases k (length route)) as [Hlt | Hge].
  - rewrite nth_error_app1 in Hk by exact Hlt.
    rewrite firstn_app. replace (k - length route)%nat with 0%nat by lia.
    simpl. rewrite app_nil_r. apply Hok. exact Hk.
  - rewrite nth_error_app2 in Hk by exact Hge.
    destruct (k - length route)%nat eqn:E; [|destruct n; discriminate].
    injection Hk as <-. replace k with (length route) by lia.
    rewrite firstn_app, firstn_all, Nat.sub_diag. simpl. rewrite app_nil_r. exact Hs.
Qed.

Lemma greedy_loop_steps (start : Point) (stores : list Stop) :
  NoDup (map id stores) ->
  forall fuel route,
  greedy_steps_ok calculateDistance start stores route ->
  greedy_steps_ok calculateDistance start stores
    (greedy_loop calculateDistance fuel stores (last_point start route)
       (map id (filter (unvisited_in route) stores)) route).
Proof.
  intros Hnd fuel. induction fuel as [|fuel IH]; intros route Hok.
  - destruct (map id (filter (unvisited_in route) stores)); exact Hok.
  - destruct (map id (filter (unvisited_in route) stores)) as [|sid u'] eqn:Eu;
      [exact Hok|].
    cbn [greedy_loop]. rewrite <- Eu.
    destruct (scan_nearest calculateDistance stores (last_point start route)
                (map id (filter (unvisited_in route) stores)) None None)
      as [s|] eqn:Es; [|exact Hok].
    assert (Hf : forall t, In t (filter (unvisited_in route) stores) ->
                           find_by_id stores (id t) = Some t).
    { intros t Ht. apply filter_In in Ht as [Ht _]. apply find_by_id_unique; assumption. }
    destruct (scan_argmin _ _ _ _ Hf Es) as (L1 & L2 & HL & H1 & H2).
    destruct (filter_split _ _ _ _ _ HL) as (A1 & A2 & HA & HA1 & HA2).
    assert (Hsf : In s (filter (unvisited_in route) stores))
      by (rewrite HL; apply in_or_app; right; left; reflexivity).
    apply filter_In in Hsf as [_ Hsu].
    rewrite set_delete_unvisited.
    replace (coordinates s) with (last_point start (route ++ [s]))
      by (unfold last_point; rewrite fold_left_app; reflexivity).
    apply IH. apply greedy_steps_ok_snoc; [exact Hok|].
    unfold unvisited_in in Hsu. apply negb_true_iff, set_has_false in Hsu.
    exists A1, A2. split; [exact HA|]. split; [exact Hsu|]. split.
    + intros t Ht Hv. apply H1. rewrite <- HA1. apply filter_In. split; [exact Ht|].
      unfold unvisited_in. apply negb_true_iff, set_has_false. exact Hv.
    + intros t Ht Hv. apply H2. rewrite <- HA2. apply filter_In. split; [exact Ht|].
      unfold unvisited_in. apply negb_true_iff, set_has_false. exact Hv.
Qed.

(** C5: with unique ids, at every step of [optimizeRouteGreedy] the chosen
    stop is an unvisited stop at minimum distance from the current position,
    and every unvisited stop earlier in the input list is strictly farther:
    among the stops at equal minimum distance the earliest one is chosen. *)
Theorem optimizeRouteGreedy_tie_break (start : Point) (stores : list Stop) :
  NoDup (map id stores) ->
  forall k s,
    nth_error (optimizeRouteGreedy calculateDistance start stores) k = Some s ->
    nearest_choice calculateDistance stores
      (last_point start (firstn k (optimizeRouteGreedy calculateDistance start stores)))
      (map id (firstn k (optimizeRouteGreedy calculateDistance start stores))) s.
Proof.
  intros Hnd.
  destruct stores as [|s0 [|s1 rest]] eqn:Est.
  - intros [|k] s H; discriminate.
  - intros [|k] s H; [|destruct k; discriminate].
    injection H as <-. exists [], []. split; [reflexivity|].
    split; [intros []|]. split; intros t [].
  - rewrite <- Est in Hnd |- *.
    replace (optimizeRouteGreedy calculateDistance start stores) with
      (greedy_loop calculateDistance (length (new_Set (map id stores))) stores start
         (new_Set (map id stores)) []) by (subst; reflexivity).
    assert (Hu : new_Set (map id stores) = map id (filter (unvisited_in []) stores)).
    { unfold new_Set. rewrite new_Set_first_occ. simpl.
      rewrite first_occ_NoDup_id by (exact Hnd || intros t _ []).
      rewrite (filter_ext (unvisited_in []) (fun _ => true)) by reflexivity.
      rewrite filter_true. reflexivity. }
    assert (H0 : greedy_steps_ok calculateDistance start stores []).
    { intros [|k] s H; discriminate. }
    pose proof (greedy_loop_steps start stores Hnd (length (new_Set (map id stores))) [] H0)
      as H.
    cbn [last_point fold_left] in H. rewrite <- Hu in H. exact H.
Qed.

(** *** findOptimalInsertionPoint *)

Lemma insertion_loop_argmin (start : Point) (route : list Stop) (newStore : Stop) :
  let f := insertion_increase calculateDistance start route newStore in
  forall k i b,
  (b < i)%nat -> (forall j, (j < i)%nat -> f b <= f j) ->
  (forall j, (j < b)%nat -> f b < f j) ->
  let r := insertion_loop calculateDistance start route newStore i k (Some (f b)) b in
  (r < i + k)%nat /\ (forall j, (j < i + k)%nat -> f r <= f j) /\
  (forall j, (j < r)%nat -> f r < f j).
Proof.
  intros f k. induction k as [|k IH]; intros i b Hb Hle Hlt; cbn zeta.
  - simpl. rewrite Nat.add_0_r. split; [exact Hb|]. split; assumption.
  - simpl. fold (f i). fold (f b).
    destruct (Qlt_bool (f i) (f b)) eqn:E.
    + apply Qlt_bool_iff in E.
      replace (i + S k)%nat with (S i + k)%nat by lia. apply IH.
      * lia.
      * intros j Hj. destruct (Nat.eq_dec j i) as [-> | Hne]; [apply Qle_refl|].
        apply Qlt_le_weak. apply Qlt_le_trans with (f b); [exact E | apply Hle; lia].
      * intros j Hj. apply Qlt_le_trans with (f b); [exact E | apply Hle; lia].
    + apply Qlt_bool_false in E.
      replace (i + S k)%nat with (S i + k)%nat by lia. apply IH.
      * lia.
      * intros j Hj. destruct (Nat.eq_dec j i) as [-> | Hne]; [exact E|]. apply Hle; lia.
      * exact Hlt.
Qed.

(** C6: [findOptimalInsertionPoint] returns an index in [[0, len(route)]],
    0 for an empty route, and an index whose insertion has the smallest
    increase of the total path distance, every earlier index having a
    strictly larger increase (ties go to the smallest index). *)
Theorem findOptimalInsertionPoint_argmin (start : Point) (route : list Stop)
    (newStore : Stop) :
  let idx := findOptimalInsertionPoint calculateDistance start route newStore in
  let increase := insertion_increase calculateDistance start route newStore in
  (idx <= length route)%nat /\
  findOptimalInsertionPoint calculateDistance start [] newStore = 0%nat /\
  (forall j, (j <= length route)%nat -> increase idx <= increase j) /\
  (forall j, (j < idx)%nat -> increase idx < increase j).
Proof.
  cbn zeta. destruct route as [|s0 rest] eqn:Er.
  - simpl. split; [lia|]. split; [reflexivity|]. split; [|intros j Hj; lia].
    intros j Hj. replace j with 0%nat by lia. apply Qle_refl.
  - rewrite <- Er.
    assert (Hidx : findOptimalInsertionPoint calculateDistance start route newStore
                   = insertion_loop calculateDistance start route newStore 1 (length route)
                       (Some (insertion_increase calculateDistance start route newStore 0)) 0)
      by (rewrite Er; reflexivity).
    rewrite Hidx.
    destruct (insertion_loop_argmin start route newStore (length route) 1 0)
      as (H1 & H2 & H3).
    + lia.
    + intros j Hj. replace j with 0%nat by lia. apply Qle_refl.
    + intros j Hj. lia.
    + split; [lia|]. split; [reflexivity|]. split; [|exact H3].
      intros j Hj. apply H2. lia.
Qed.

(** *** calculateRouteStats *)

Lemma Math_round_comp (x y : Q) : x == y -> Math_round x = Math_round y.
Proof.
  intros H. unfold Math_round. apply Qfloor_comp. rewrite H. reflexivity.
Qed.

(** C7: in ['walking'] mode the total cost is 0 and the total time is the
    unrounded total distance at 3 mph, in minutes, rounded to an integer at
    the end; the total distance is rounded to 2 decimals at the end. *)
Theorem walking_stats (start : Point) (route : list Stop) :
  let st := calculateRouteStats calculateDistance start route (Some "walking"%string) in
  let total := calculateTotalDistance calculateDistance start route in
  totalCost st == 0 /\
  totalTime st = Math_round (total / 3 * 60) /\
  totalDistance st == inject_Z (Math_round (total * 100)) / 100 /\
  stops st = length route.
Proof.
  cbn zeta. destruct route as [|s0 rest].
  - split; [reflexivity|]. split; [reflexivity|]. split; reflexivity.
  - unfold calculateRouteStats. cbn [String.eqb Ascii.eqb Bool.eqb andb].
    simpl totalCost. simpl totalTime. simpl totalDistance. simpl stops.
    split; [reflexivity|]. split; [reflexivity|]. split; reflexivity.
Qed.

Lemma mixed_loop_sum (cur : Point) (route : list Stop) (t c : Q) :
  fst (mixed_loop calculateDistance cur route t c)
    == t + Qsum (map mixed_segment_time (segment_distances calculateDistance cur route)) /\
  snd (mixed_loop calculateDistance cur route t c)
    == c + Qsum (map mixed_segment_cost (segment_distances calculateDistance cur route)).
Proof.
  revert cur t c. induction route as [|s rest IH]; intros cur t c; simpl.
  - split; ring.
  - unfold mixed_segment_time at 1, mixed_segment_cost at 1.
    destruct (Qlt_bool (dist calculateDistance cur (coordinates s)) (1 # 2)).
    + destruct (IH (coordinates s) (t + dist calculateDistance cur (coordinates s) / 3 * 60) c)
        as [H1 H2].
      rewrite H1, H2. split; ring.
    + destruct (IH (coordinates s) (t + 15) (c + 3)) as [H1 H2].
      rewrite H1, H2. split; ring.
Qed.

(** C10: for every mode other than ['walking'] and ['subway'] (omitted,
    hence ['mixed'], or any other string), the total time and cost follow
    the mixed per-segment policy: segments strictly below 0.5 mile walked
    at 3 mph for free, the others a flat 15 minutes and one 3.00 fare. *)
Theorem mixed_policy_default (start : Point) (route : list Stop)
    (transportMode : option string) :
  transportMode <> Some "walking"%string ->
  transportMode <> Some "subway"%string ->
  let st := calculateRouteStats calculateDistance start route transportMode in
  let segs := segment_distances calculateDistance start route in
  totalTime st = Math_round (Qsum (map mixed_segment_time segs)) /\
  totalCost st == inject_Z (Math_round (Qsum (map mixed_segment_cost segs) * 100)) / 100.
Proof.
  intros Hw Hs. cbn zeta.
  assert (Hmode : forall m, transportMode = Some m \/ (transportMode = None /\ m = "mixed"%string) ->
            String.eqb m "walking" = false /\ String.eqb m "subway" = false).
  { intros m [-> | [-> ->]]; [|split; reflexivity].
    split; apply String.eqb_neq; intros ->; [apply Hw | apply Hs]; reflexivity. }
  destruct route as [|s0 rest].
  - split; reflexivity.
  - unfold calculateRouteStats. cbv beta iota zeta.
    destruct (Hmode (match transportMode with None => "mixed"%string | Some m => m end))
      as [E1 E2]; [destruct transportMode; [left | right]; auto|].
    rewrite E1, E2. cbv beta iota.
    pose proof (mixed_loop_sum start (s0 :: rest) 0 0) as [H1 H2].
    destruct (mixed_loop calculateDistance start (s0 :: rest) 0 0) as [t c].
    cbn [fst snd totalTime totalCost] in *.
    split.
    + apply Math_round_comp. rewrite H1. ring.
    + rewrite (Math_round_comp (c * 100) (Qsum (map mixed_segment_cost
         (segment_distances calculateDistance start (s0 :: rest))) * 100)); [reflexivity|].
      rewrite H2. ring.
Qed.

(** *** Determinism *)









(** *** The 2-opt scan *)

(** C2 (as the code has it): at the last position [j = n - 1] the edge
    after [j] is taken at index [(j + 1) % n = 0], so both sides of the
    comparison include an edge from the last stop, or from stop [i + 1],
    back to the first stop of the route. *)
Theorem two_opt_last_position_wraps (r : list Stop) (i : nat) :
  (4 <= length r)%nat ->
  current_dist calculateDistance r i (length r - 1)
    = getSegmentDistance calculateDistance r i (i + 1)
      + getSegmentDistance calculateDistance r (length r - 1) 0 /\
  swapped_dist calculateDistance r i (length r - 1)
    = getSegmentDistance calculateDistance r i (length r - 1)
      + getSegmentDistance calculateDistance r (i + 1) 0 /\
  exists last first,
    nth_error r (length r - 1) = Some last /\ nth_error r 0 = Some first /\
    getSegmentDistance calculateDistance r (length r - 1) 0
      = dist calculateDistance (coordinates last) (coordinates first).
Proof.
  intros Hn.
  assert (Hm : Nat.modulo (length r - 1 + 1) (length r) = 0%nat).
  { replace (length r - 1 + 1)%nat with (length r) by lia. apply Nat.Div0.mod_same. }
  unfold current_dist, swapped_dist. rewrite Hm. split; [reflexivity|]. split; [reflexivity|].
  destruct (nth_error r (length r - 1)) as [last|] eqn:El;
    [|apply nth_error_None in El; lia].
  destruct r as [|first rest]; [simpl in Hn; lia|].
  exists last, first. split; [reflexivity|]. split; [reflexivity|].
  unfold getSegmentDistance. rewrite El.
  replace (length (first :: rest) <=? length (first :: rest) - 1)%nat with false
    by (symmetry; apply Nat.leb_gt; simpl; lia).
  reflexivity.
Qed.

(** C3 (as the code has it): when the pair [(i, j)] improves, the segment
    [i+1..j] is reversed and the inner loop goes on with [(i, j + 1)] on
    the mutated route; the scan starts again from the top only in the next
    pass, which runs when the pass applied a move and passes remain. *)
Theorem two_opt_scan_continues (r : list Stop) (i j k : nat) (improved : bool) :
  inner_loop calculateDistance r i j (S k) improved
    = (if swap_improves calculateDistance r i j
       then inner_loop calculateDistance (reverse_segment r i j) i (S j) k true
       else inner_loop calculateDistance r i (S j) k improved) /\
  outer_loop calculateDistance r i (S k) improved
    = (let (r', imp') :=
         inner_loop calculateDistance r i (i + 2) (length r - (i + 2)) improved in
       outer_loop calculateDistance r' (S i) k imp') /\
  (forall m, passes calculateDistance (S m) r
     = let (r', imp) := pass calculateDistance r in
       if imp then passes calculateDistance m r' else r').
Proof.
  split; [reflexivity|]. split; [reflexivity|]. intros m. reflexivity.
Qed.

End Proofs.

(** ** Concrete runs *)

Lemma route_c1_ids_NoDup : NoDup (map id route_c1).
Proof. simpl. repeat constructor; simpl; intuition discriminate. Qed.

(** C1: on [route_c1] from [origin], the 2-opt pass accepts the move
    [(i, j) = (1, 3)] because its comparison counts the wrap-around edges
    [D -> A] and [C -> A]; the returned order [A, B, D, C] is longer, as an
    open path from the start, than the input order [A, B, C, D]. *)
Lemma two_opt_increases_length :
  map id (optimize2Opt flat_distance route_c1 100) = ["A"; "B"; "D"; "C"]%string /\
  swap_improves flat_distance route_c1 1 3 = true /\
  getSegmentDistance flat_distance route_c1 1 2 < getSegmentDistance flat_distance route_c1 1 3 /\
  calculateTotalDistance flat_distance origin route_c1
    < calculateTotalDistance flat_distance origin (optimize2Opt flat_distance route_c1 100).
Proof.
  split; [vm_compute; reflexivity|]. split; [vm_compute; reflexivity|].
  split; vm_compute; reflexivity.
Qed.

Lemma two_opt_last_position_wraps_witness :
  (4 <= length route_c1)%nat /\
  current_dist flat_distance route_c1 1 (length route_c1 - 1)
    = getSegmentDistance flat_distance route_c1 1 2
      + getSegmentDistance flat_distance route_c1 (length route_c1 - 1) 0.
Proof.
  split; [simpl; lia|].
  apply (two_opt_last_position_wraps flat_distance route_c1 1). simpl. lia.
Defined.

(** C3: after a single pass on [route_c3] the route has changed, yet the
    pair [(1, 3)] still strictly improves it.  Had the scan restarted from
    the top after each move, the pass could only have ended once a full
    scan found no improving pair. *)
Lemma two_opt_pass_no_restart :
  map id (optimize2Opt flat_distance route_c3 1) = ["P"; "S"; "T"; "R"; "Q"]%string /\
  swap_improves flat_distance (optimize2Opt flat_distance route_c3 1) 1 3 = true.
Proof. split; vm_compute; reflexivity. Qed.

Lemma routes_preserve_stops_witness :
  NoDup (map id route_c1) /\
  Permutation (map id (optimizeRouteGreedy flat_distance origin route_c1)) (map id route_c1).
Proof.
  split; [exact route_c1_ids_NoDup|].
  apply (proj1 (routes_preserve_stops flat_distance)). exact route_c1_ids_NoDup.
Defined.

Lemma optimizeRouteGreedy_tie_break_witness :
  NoDup (map id route_c1) /\
  nth_error (optimizeRouteGreedy flat_distance origin route_c1) 0 = Some (stop_at "D" 1 0) /\
  nearest_choice flat_distance route_c1
    (last_point origin (firstn 0 (optimizeRouteGreedy flat_distance origin route_c1)))
    (map id (firstn 0 (optimizeRouteGreedy flat_distance origin route_c1)))
    (stop_at "D" 1 0).
Proof.
  split; [exact route_c1_ids_NoDup|]. split; [vm_compute; reflexivity|].
  apply (optimizeRouteGreedy_tie_break flat_distance origin route_c1 route_c1_ids_NoDup 0).
  vm_compute. reflexivity.
Defined.

Lemma findOptimalInsertionPoint_argmin_witness :
  (2 <= length route_c1)%nat /\
  insertion_increase flat_distance origin route_c1 (stop_at "E" 3 3)
    (findOptimalInsertionPoint flat_distance origin route_c1 (stop_at "E" 3 3))
  <= insertion_increase flat_distance origin route_c1 (stop_at "E" 3 3) 2.
Proof.
  split; [simpl; lia|].
  apply (proj1 (proj2 (proj2
    (findOptimalInsertionPoint_argmin flat_distance origin route_c1 (stop_at "E" 3 3))))).
  simpl. lia.
Defined.

Lemma mixed_policy_default_witness :
  (None : option string) <> Some "walking"%string /\
  (None : option string) <> Some "subway"%string /\
  totalTime (calculateRouteStats flat_distance origin route_c1 None)
    = Math_round (Qsum (map mixed_segment_time (segment_distances flat_distance origin route_c1))).
Proof.
  split; [discriminate|]. split; [discriminate|].
  apply (mixed_policy_default flat_distance origin route_c1 None); discriminate.
Defined.


(** ** Further properties of the service *)

Section Extras.

Variable calculateDistance : Q -> Q -> Q -> Q -> Q.

(** *** calculateTotalDistance *)

Lemma total_loop_sum (t : Q) (cur : Point) (route : list Stop) :
  total_loop calculateDistance t cur route
  == t + Qsum (segment_distances calculateDistance cur route).
Proof.
  revert t cur. induction route as [|s rest IH]; intros t cur; simpl.
  - ring.
  - rewrite IH. ring.
Qed.

(** The accumulated total of [calculateTotalDistance] is the sum of the
    distances of the legs [start -> route[0] -> ... -> route[n-1]]. *)
Theorem calculateTotalDistance_legs (start : Point) (route : list Stop) :
  calculateTotalDistance calculateDistance start route
  == Qsum (segment_distances calculateDistance start route).
Proof.
  destruct route as [|s rest]; [reflexivity|].
  unfold calculateTotalDistance. rewrite total_loop_sum. ring.
Qed.

Lemma Qsum_app (a b : list Q) : Qsum (a ++ b) == Qsum a + Qsum b.
Proof.
  induction a as [|x a IH]; simpl; [ring|]. rewrite IH. ring.
Qed.

Lemma segment_distances_app (cur : Point) (l1 l2 : list Stop) :
  segment_distances calculateDistance cur (l1 ++ l2)
  = segment_distances calculateDistance cur l1
    ++ segment_distances calculateDistance (last_point cur l1) l2.
Proof.
  revert cur. induction l1 as [|s l1 IH]; intros cur; simpl; [reflexivity|].
  rewrite IH. reflexivity.
Qed.

(** The total distance of a concatenated route is the total of the first
    part plus the total of the second part started where the first ends. *)
Theorem calculateTotalDistance_app (start : Point) (l1 l2 : list Stop) :
  calculateTotalDistance calculateDistance start (l1 ++ l2)
  == calculateTotalDistance calculateDistance start l1
     + calculateTotalDistance calculateDistance (last_point start l1) l2.
Proof.
  rewrite !calculateTotalDistance_legs, segment_distances_app, Qsum_app.
  reflexivity.
Qed.

(** *** optimize2Opt *)

Lemma inner_loop_true (r : list Stop) (i j k : nat) :
  snd (inner_loop calculateDistance r i j k true) = true.
Proof.
  revert r j. induction k as [|k IH]; intros r j; simpl; [reflexivity|].
  destruct (swap_improves calculateDistance r i j); apply IH.
Qed.

Lemma inner_loop_unchanged (r : list Stop) (i j k : nat) (imp : bool) :
  snd (inner_loop calculateDistance r i j k imp) = false ->
  fst (inner_loop calculateDistance r i j k imp) = r /\ imp = false.
Proof.
  revert r j. induction k as [|k IH]; intros r j; simpl; [intros ->; tauto|].
  destruct (swap_improves calculateDistance r i j).
  - rewrite inner_loop_true. discriminate.
  - apply IH.
Qed.

Lemma outer_loop_true (r : list Stop) (i k : nat) :
  snd (outer_loop calculateDistance r i k true) = true.
Proof.
  revert r i. induction k as [|k IH]; intros r i; simpl; [reflexivity|].
  pose proof (inner_loop_true r i (i + 2) (length r - (i + 2))) as H.
  destruct (inner_loop calculateDistance r i (i + 2) (length r - (i + 2)) true)
    as [r' imp']. simpl in H. subst imp'. apply IH.
Qed.

Lemma outer_loop_unchanged (r : list Stop) (i k : nat) (imp : bool) :
  snd (outer_loop calculateDistance r i k imp) = false ->
  fst (outer_loop calculateDistance r i k imp) = r /\ imp = false.
Proof.
  revert r i imp. induction k as [|k IH]; intros r i imp; simpl; [intros ->; tauto|].
  pose proof (inner_loop_unchanged r i (i + 2) (length r - (i + 2)) imp) as Hin.
  destruct (inner_loop calculateDistance r i (i + 2) (length r - (i + 2)) imp)
    as [r' imp'] eqn:E. simpl in Hin.
  intros H. destruct imp'.
  - rewrite outer_loop_true in H. discriminate.
  - destruct (IH r' (S i) false H) as [H1 _]. destruct (Hin eq_refl) as [-> ->].
    split; [exact H1 | reflexivity].
Qed.

Lemma pass_unchanged (r r' : list Stop) :
  pass calculateDistance r = (r', false) -> r' = r.
Proof.
  unfold pass. intros H.
  pose proof (outer_loop_unchanged r 0 (length r - 2) false) as Ho.
  rewrite H in Ho. apply (Ho eq_refl).
Qed.

Lemma passes_fixpoint (k : nat) (r : list Stop) :
  pass calculateDistance r = (r, false) -> passes calculateDistance k r = r.
Proof.
  intros H. destruct k as [|k]; simpl; [reflexivity|]. rewrite H. reflexivity.
Qed.

(** [optimize2Opt] returns its input unchanged when the route has fewer
    than 4 stops, when [maxIterations = 0], or when a full pass over the
    route finds no improving pair. *)
Theorem optimize2Opt_unchanged (route : list Stop) (maxIterations : nat) :
  ((length route < 4)%nat \/ maxIterations = 0%nat \/
   snd (pass calculateDistance route) = false) ->
  optimize2Opt calculateDistance route maxIterations = route.
Proof.
  intros H. unfold optimize2Opt.
  destruct (length route <? 4)%nat eqn:E; [reflexivity|].
  apply Nat.ltb_ge in E.
  destruct H as [H | [-> | H]]; [lia | reflexivity|].
  destruct (pass calculateDistance route) as [r' imp] eqn:Ep. simpl in H. subst imp.
  rewrite (pass_unchanged _ _ Ep) in Ep. apply passes_fixpoint. exact Ep.
Qed.

Lemma passes_add (m k : nat) (r : list Stop) :
  passes calculateDistance (m + k) r = passes calculateDistance k (passes calculateDistance m r).
Proof.
  revert r. induction m as [|m IH]; intros r; [reflexivity|].
  simpl. destruct (pass calculateDistance r) as [r' imp] eqn:Ep.
  destruct imp; [apply IH|].
  rewrite (pass_unchanged _ _ Ep) in Ep |- *. symmetry. apply passes_fixpoint. exact Ep.
Qed.

(** Refining with a budget of [m + k] passes is the same as refining with
    [m] passes and refining the result again with [k] passes. *)
Theorem optimize2Opt_budget_split (route : list Stop) (m k : nat) :
  optimize2Opt calculateDistance route (m + k)
  = optimize2Opt calculateDistance (optimize2Opt calculateDistance route m) k.
Proof.
  unfold optimize2Opt at 1 3.
  destruct (length route <? 4)%nat eqn:E.
  - unfold optimize2Opt. rewrite E. reflexivity.
  - unfold optimize2Opt. rewrite (Permutation_length (passes_perm calculateDistance m route)), E.
    apply passes_add.
Qed.

Lemma optimize2Opt_preserves (P : list Stop -> Prop) (route : list Stop) (m : nat) :
  (forall r i j, P r -> P (reverse_segment r i j)) ->
  P route -> P (optimize2Opt calculateDistance route m).
Proof.
  intros Hrev Hr.
  assert (Hin : forall r i j k imp, P r -> P (fst (inner_loop calculateDistance r i j k imp))).
  { intros r i j k. revert r j. induction k as [|k IH]; intros r j imp H; simpl; [exact H|].
    destruct (swap_improves calculateDistance r i j); apply IH; [apply Hrev|]; exact H. }
  assert (Hout : forall r i k imp, P r -> P (fst (outer_loop calculateDistance r i k imp))).
  { intros r i k. revert r i. induction k as [|k IH]; intros r i imp H; simpl; [exact H|].
    pose proof (Hin r i (i + 2)%nat (length r - (i + 2))%nat imp H) as H'.
    destruct (inner_loop calculateDistance r i (i + 2)%nat (length r - (i + 2))%nat imp) as [r' imp'].
    apply IH. exact H'. }
  unfold optimize2Opt. destruct (length route <? 4)%nat; [exact Hr|].
  revert route Hr. induction m as [|m IH]; intros r H; simpl; [exact H|].
  unfold pass. pose proof (Hout r 0%nat (length r - 2)%nat false H) as H'.
  destruct (outer_loop calculateDistance r 0%nat (length r - 2)%nat false) as [r' imp].
  destruct imp; [apply IH|]; exact H'.
Qed.

(** [optimize2Opt] keeps the number of stops and never moves the first
    stop of the route: every reversal starts at position [i + 1 >= 1]. *)
Theorem optimize2Opt_keeps_first (route : list Stop) (maxIterations : nat) :
  length (optimize2Opt calculateDistance route maxIterations) = length route /\
  nth_error (optimize2Opt calculateDistance route maxIterations) 0 = nth_error route 0.
Proof.
  split.
  - apply Permutation_length, optimize2Opt_perm.
  - apply (optimize2Opt_preserves (fun r => nth_error r 0 = nth_error route 0));
      [|reflexivity].
    intros r i j H. rewrite <- H. unfold reverse_segment. rewrite Nat.add_1_r.
    destruct r as [|x r]; simpl; [rewrite firstn_nil, skipn_nil; reflexivity | reflexivity].
Qed.

Lemma firstn_app_len (A B : list Stop) : firstn (length A) (A ++ B) = A.
Proof. induction A as [|x A IH]; simpl; [reflexivity | rewrite IH; reflexivity]. Qed.

Lemma skipn_app_len (A B : list Stop) : skipn (length A) (A ++ B) = B.
Proof. induction A as [|x A IH]; simpl; [reflexivity | exact IH]. Qed.

Lemma reverse_segment_app (A M B : list Stop) (i j : nat) :
  (i <= j)%nat -> length A = (i + 1)%nat -> length M = (j - i)%nat ->
  reverse_segment (A ++ M ++ B) i j = A ++ rev M ++ B.
Proof.
  intros Hij HA HM. unfold reverse_segment.
  replace (j + 1 - (i + 1))%nat with (length M) by lia.
  replace (i + 1)%nat with (length A) by exact HA.
  rewrite firstn_app_len, skipn_app_len, firstn_app_len.
  replace (j + 1)%nat with (length (A ++ M)) by (rewrite length_app; lia).
  rewrite (app_assoc A M B), skipn_app_len. reflexivity.
Qed.

(** Applying the same 2-opt reversal twice, for positions [i <= j] inside
    the route, gives the route back. *)
Theorem reverse_segment_involutive (r : list Stop) (i j : nat) :
  (i <= j)%nat -> (j < length r)%nat ->
  reverse_segment (reverse_segment r i j) i j = r.
Proof.
  intros Hij Hj.
  set (A := firstn (i + 1) r). set (M := firstn (j - i) (skipn (i + 1) r)).
  set (B := skipn (j + 1) r).
  assert (Hr : r = A ++ M ++ B).
  { unfold A, M, B. rewrite <- (firstn_skipn (i + 1) r) at 1. f_equal.
    rewrite <- (firstn_skipn (j - i) (skipn (i + 1) r)) at 1. f_equal.
    rewrite skipn_skipn. f_equal. lia. }
  assert (HA : length A = (i + 1)%nat) by (unfold A; rewrite length_firstn; lia).
  assert (HM : length M = (j - i)%nat)
    by (unfold M; rewrite length_firstn, length_skipn; lia).
  rewrite Hr at 1. rewrite reverse_segment_app by assumption.
  rewrite reverse_segment_app by (rewrite ?length_rev; assumption).
  rewrite rev_involutive. symmetry; exact Hr.
Qed.

(** *** The change of length made by one 2-opt move *)

Lemma segs_path_len (c : Point) (l : list Stop) :
  Qsum (segment_distances calculateDistance c l)
  == path_len calculateDistance (c :: map coordinates l).
Proof.
  revert c. induction l as [|s l IH]; intros c; [reflexivity|].
  change (Qsum (segment_distances calculateDistance c (s :: l)))
    with (dist calculateDistance c (coordinates s)
          + Qsum (segment_distances calculateDistance (coordinates s) l)).
  rewrite IH. reflexivity.
Qed.

Lemma path_len_cons2 (p q : Point) (ps : list Point) :
  path_len calculateDistance (p :: q :: ps)
  = dist calculateDistance p q + path_len calculateDistance (q :: ps).
Proof. reflexivity. Qed.

Lemma path_len_app (xs ys : list Point) (y : Point) :
  path_len calculateDistance (xs ++ y :: ys)
  == path_len calculateDistance (xs ++ [y]) + path_len calculateDistance (y :: ys).
Proof.
  induction xs as [|x xs IH].
  - simpl app. change (path_len calculateDistance [y]) with 0. ring.
  - destruct xs as [|x' xs].
    + simpl app. rewrite !path_len_cons2. change (path_len calculateDistance [y]) with 0. ring.
    + change ((x :: x' :: xs) ++ y :: ys) with (x :: x' :: (xs ++ y :: ys)).
      change ((x :: x' :: xs) ++ [y]) with (x :: x' :: (xs ++ [y])).
      simpl app in IH. rewrite !path_len_cons2, IH. ring.
Qed.

Lemma nth_error_at (X Y : list Stop) (y : Stop) (n : nat) :
  length X = n -> nth_error (X ++ y :: Y) n = Some y.
Proof.
  intros <-. induction X as [|x X IH]; simpl; [reflexivity | exact IH].
Qed.

Lemma getSegmentDistance_at (r : list Stop) (i j : nat) (a b : Stop) :
  nth_error r i = Some a -> nth_error r j = Some b ->
  getSegmentDistance calculateDistance r i j
  = dist calculateDistance (coordinates a) (coordinates b).
Proof.
  intros Ha Hb. unfold getSegmentDistance.
  assert (Li : (i < length r)%nat) by (apply nth_error_Some; congruence).
  assert (Lj : (j < length r)%nat) by (apply nth_error_Some; congruence).
  destruct (length r <=? i)%nat eqn:E1; [apply Nat.leb_le in E1; lia|].
  destruct (length r <=? j)%nat eqn:E2; [apply Nat.leb_le in E2; lia|].
  simpl. rewrite Ha, Hb. reflexivity.
Qed.

Lemma two_opt_split (r : list Stop) (i j : nat) :
  (i < j)%nat -> (j + 1 < length r)%nat ->
  exists P a M b S, r = P ++ a :: M ++ b :: S /\ length P = i /\ length M = (j - i)%nat.
Proof.
  intros Hij Hj.
  assert (E1 := firstn_skipn i r).
  assert (L1 := length_skipn i r).
  destruct (skipn i r) as [|a R] eqn:ER; [simpl in L1; lia|].
  simpl in L1.
  assert (E2 := firstn_skipn (j - i) R).
  assert (L2 := length_skipn (j - i) R).
  destruct (skipn (j - i) R) as [|b S] eqn:ES; [simpl in L2; lia|].
  exists (firstn i r), a, (firstn (j - i) R), b, S.
  split; [|split].
  - rewrite <- E1 at 1. f_equal. f_equal. symmetry. exact E2.
  - rewrite length_firstn. lia.
  - rewrite length_firstn. lia.
Qed.

Section Symmetric.

Hypothesis dist_sym : forall a b : Point,
  dist calculateDistance a b == dist calculateDistance b a.

Lemma path_len_rev (ps : list Point) :
  path_len calculateDistance (rev ps) == path_len calculateDistance ps.
Proof.
  induction ps as [|p ps IH]; [reflexivity|].
  destruct ps as [|q ps]; [reflexivity|].
  change (rev (p :: q :: ps)) with ((rev ps ++ [q]) ++ [p]).
  change (rev (q :: ps)) with (rev ps ++ [q]) in IH.
  rewrite <- app_assoc. change ([q] ++ [p]) with [q; p].
  rewrite path_len_app, IH, (path_len_cons2 p q ps), (path_len_cons2 q p []).
  rewrite (dist_sym q p). change (path_len calculateDistance [p]) with 0. ring.
Qed.

Lemma path_len_frame (a b h l : Point) (ps ps1 ps0 : list Point) :
  ps = h :: ps1 -> ps = ps0 ++ [l] ->
  path_len calculateDistance (a :: ps ++ [b])
  == dist calculateDistance a h + path_len calculateDistance ps + dist calculateDistance l b.
Proof.
  intros E1 E2.
  transitivity (dist calculateDistance a h + path_len calculateDistance (ps ++ [b])).
  { rewrite E1. reflexivity. }
  rewrite E2, <- app_assoc. change ([l] ++ [b]) with [l; b].
  rewrite path_len_app, (path_len_cons2 l b []).
  change (path_len calculateDistance [b]) with 0. ring.
Qed.

Lemma path_len_two_opt (pre : list Point) (a b h l : Point) (ms ms1 ms0 post : list Point) :
  ms = h :: ms1 -> ms = ms0 ++ [l] ->
  path_len calculateDistance (pre ++ a :: rev ms ++ b :: post)
  == path_len calculateDistance (pre ++ a :: ms ++ b :: post)
     - (dist calculateDistance a h + dist calculateDistance l b)
     + (dist calculateDistance a l + dist calculateDistance h b).
Proof.
  intros E1 E2.
  assert (F : forall xs, path_len calculateDistance (pre ++ a :: xs ++ b :: post)
    == path_len calculateDistance (pre ++ [a])
       + path_len calculateDistance (a :: xs ++ [b])
       + path_len calculateDistance (b :: post)).
  { intros xs. rewrite path_len_app.
    change (a :: xs ++ b :: post) with ((a :: xs) ++ b :: post).
    rewrite (path_len_app (a :: xs) post b). cbn [app]. ring. }
  rewrite !F.
  rewrite (path_len_frame a b h l ms ms1 ms0 E1 E2).
  rewrite (path_len_frame a b l h (rev ms) (rev ms0) (rev ms1)).
  - rewrite path_len_rev. ring.
  - rewrite E2, rev_app_distr. reflexivity.
  - rewrite E1. reflexivity.
Qed.

(** For a symmetric distance, the 2-opt move [(i, j)] with [i < j] and
    [j] not the last position changes the total distance of the route by
    exactly [swappedDist - currentDist], the two quantities the loop body
    compares; so every such move the loop accepts makes the route strictly
    shorter. *)
Theorem two_opt_move_delta (start : Point) (r : list Stop) (i j : nat) :
  (i < j)%nat -> (j + 1 < length r)%nat ->
  calculateTotalDistance calculateDistance start (reverse_segment r i j)
  == calculateTotalDistance calculateDistance start r
     - current_dist calculateDistance r i j + swapped_dist calculateDistance r i j /\
  (swap_improves calculateDistance r i j = true ->
   calculateTotalDistance calculateDistance start (reverse_segment r i j)
   < calculateTotalDistance calculateDistance start r).
Proof.
  intros Hij Hj.
  destruct (two_opt_split r i j Hij Hj) as (P & a & M & b & S & Er & LP & LM).
  destruct M as [|h M1]; [simpl in LM; lia|].
  destruct (exists_last (l := h :: M1) ltac:(discriminate)) as (M0 & l & EM).
  assert (LM0 : length M0 = (j - i - 1)%nat).
  { apply (f_equal (@length Stop)) in EM. rewrite length_app in EM. simpl in EM, LM. lia. }
  assert (Ni : nth_error r i = Some a) by (rewrite Er; apply nth_error_at; exact LP).
  assert (Ni1 : nth_error r (i + 1) = Some h).
  { replace r with ((P ++ [a]) ++ h :: M1 ++ b :: S)
      by (rewrite Er, <- app_assoc; reflexivity).
    apply nth_error_at. rewrite length_app. simpl. lia. }
  assert (Nj : nth_error r j = Some l).
  { replace r with ((P ++ a :: M0) ++ l :: b :: S)
      by (rewrite Er, EM, <- !app_assoc; reflexivity).
    apply nth_error_at. rewrite length_app. simpl. lia. }
  assert (Nj1 : nth_error r (j + 1) = Some b).
  { replace r with ((P ++ a :: h :: M1) ++ b :: S)
      by (rewrite Er, <- !app_assoc; reflexivity).
    apply nth_error_at. rewrite length_app. simpl in LM |- *. lia. }
  assert (Emod : Nat.modulo (j + 1) (length r) = (j + 1)%nat) by (apply Nat.mod_small; lia).
  assert (Ecur : current_dist calculateDistance r i j
    = dist calculateDistance (coordinates a) (coordinates h)
      + dist calculateDistance (coordinates l) (coordinates b)).
  { unfold current_dist. rewrite Emod, (getSegmentDistance_at r i (i + 1) a h Ni Ni1),
      (getSegmentDistance_at r j (j + 1) l b Nj Nj1). reflexivity. }
  assert (Eswp : swapped_dist calculateDistance r i j
    = dist calculateDistance (coordinates a) (coordinates l)
      + dist calculateDistance (coordinates h) (coordinates b)).
  { unfold swapped_dist. rewrite Emod, (getSegmentDistance_at r i j a l Ni Nj),
      (getSegmentDistance_at r (i + 1) (j + 1) h b Ni1 Nj1). reflexivity. }
  assert (Erev : reverse_segment r i j = (P ++ [a]) ++ rev (h :: M1) ++ b :: S).
  { replace r with ((P ++ [a]) ++ (h :: M1) ++ b :: S)
      by (rewrite Er, <- app_assoc; reflexivity).
    apply reverse_segment_app; [lia | rewrite length_app; simpl; lia | exact LM]. }
  assert (Pr : start :: map coordinates r
    = (start :: map coordinates P) ++ coordinates a
        :: map coordinates (h :: M1) ++ coordinates b :: map coordinates S).
  { rewrite Er, map_app. simpl map. rewrite map_app. reflexivity. }
  assert (Prev : start :: map coordinates (reverse_segment r i j)
    = (start :: map coordinates P) ++ coordinates a
        :: rev (map coordinates (h :: M1)) ++ coordinates b :: map coordinates S).
  { rewrite Erev, !map_app, map_rev, <- app_assoc. reflexivity. }
  assert (Delta : calculateTotalDistance calculateDistance start (reverse_segment r i j)
    == calculateTotalDistance calculateDistance start r
       - current_dist calculateDistance r i j + swapped_dist calculateDistance r i j).
  { rewrite !calculateTotalDistance_legs, !segs_path_len, Prev, Pr, Ecur, Eswp.
    apply (path_len_two_opt _ _ _ _ _ _ (map coordinates M1) (map coordinates M0)).
    - reflexivity.
    - rewrite EM, map_app. reflexivity. }
  split; [exact Delta|].
  intros Himp. unfold swap_improves in Himp. apply Qlt_bool_iff in Himp.
  rewrite Delta. lra.
Qed.

End Symmetric.

(** *** calculateRouteStats *)

Lemma Qfloor_eq (z : Z) (x : Q) : inject_Z z <= x -> x < inject_Z z + 1 -> Qfloor x = z.
Proof.
  intros H1 H2.
  assert (A := Qfloor_resp_le _ _ H1). rewrite Qfloor_Z in A.
  assert (B := Qfloor_le x).
  assert (C : inject_Z (Qfloor x) < inject_Z (z + 1)).
  { rewrite inject_Z_plus. apply (Qle_lt_trans _ x); assumption. }
  rewrite <- Zlt_Qlt in C. lia.
Qed.

Lemma Math_round_Z (z : Z) : Math_round (inject_Z z) = z.
Proof.
  unfold Math_round. apply Qfloor_eq; lra.
Qed.

Lemma Math_round_bounds (x : Q) :
  x - (1 # 2) < inject_Z (Math_round x) /\ inject_Z (Math_round x) <= x + (1 # 2).
Proof.
  unfold Math_round. split.
  - assert (H := Qlt_floor (x + (1 # 2))). rewrite inject_Z_plus in H.
    change (inject_Z 1) with 1 in H. lra.
  - apply Qfloor_le.
Qed.

Lemma Math_round_le (x : Q) (z : Z) : x <= inject_Z z -> (Math_round x <= z)%Z.
Proof.
  intros H. rewrite <- (Math_round_Z z). unfold Math_round.
  apply Qfloor_resp_le. lra.
Qed.

Lemma Math_round_ge (x : Q) (z : Z) : inject_Z z <= x -> (z <= Math_round x)%Z.
Proof.
  intros H. rewrite <- (Math_round_Z z). unfold Math_round.
  apply Qfloor_resp_le. lra.
Qed.

Lemma calculateRouteStats_cons (start : Point) (s0 : Stop) (rest : list Stop)
    (transportMode : option string) :
  exists t c,
    calculateRouteStats calculateDistance start (s0 :: rest) transportMode
    = mkRouteStats
        (inject_Z (Math_round (calculateTotalDistance calculateDistance start (s0 :: rest) * 100)) / 100)
        (Math_round t) (inject_Z (Math_round (c * 100)) / 100) (length (s0 :: rest)).
Proof.
  unfold calculateRouteStats.
  match goal with |- context [let '(_, _) := ?e in _] => destruct e as [t c] end.
  exists t, c. reflexivity.
Qed.

(** In every transport mode, [stops] is the number of stops of the route
    and [totalDistance] is the total of [calculateTotalDistance] rounded to
    2 decimals: it lies within 0.005 of the exact total. *)
Theorem calculateRouteStats_distance (start : Point) (route : list Stop)
    (transportMode : option string) :
  let st := calculateRouteStats calculateDistance start route transportMode in
  let total := calculateTotalDistance calculateDistance start route in
  stops st = length route /\
  total - (1 # 200) <= totalDistance st <= total + (1 # 200).
Proof.
  cbn zeta. destruct route as [|s0 rest].
  - split; [reflexivity|]. simpl. split; lra.
  - destruct (calculateRouteStats_cons start s0 rest transportMode) as (t & c & ->).
    cbn [stops totalDistance]. split; [reflexivity|].
    set (T := calculateTotalDistance calculateDistance start (s0 :: rest)).
    destruct (Math_round_bounds (T * 100)) as [B1 B2].
    change (?x / 100) with (x * (1 # 100)). split; lra.
Qed.

(** In ['subway'] mode the time and cost of a non-empty route of [n]
    stops do not depend on the distances: [15 n + 20] minutes and
    [3.00 (n + 1)], which the final rounding leaves unchanged. *)
Theorem subway_stats (start : Point) (route : list Stop) :
  route <> [] ->
  let st := calculateRouteStats calculateDistance start route (Some "subway"%string) in
  let n := Z.of_nat (length route) in
  totalTime st = (15 * n + 20)%Z /\ totalCost st == inject_Z (3 * (n + 1)).
Proof.
  intros Hne. cbn zeta. destruct route as [|s0 rest]; [congruence|].
  unfold calculateRouteStats. cbn [String.eqb Ascii.eqb Bool.eqb andb].
  cbn [totalTime totalCost]. set (n := Z.of_nat (length (s0 :: rest))).
  split.
  - rewrite <- (Math_round_Z (15 * n + 20)). apply Math_round_comp.
    rewrite inject_Z_plus, inject_Z_mult. ring.
  - rewrite (Math_round_comp _ (inject_Z (300 * (n + 1)))).
    + rewrite Math_round_Z, !inject_Z_mult, inject_Z_plus.
      change (?x / 100) with (x * (1 # 100)). ring.
    + rewrite inject_Z_mult, inject_Z_plus. ring.
Qed.

Lemma Qsum_le (l : list Q) (m : Q) :
  (forall x, In x l -> x <= m) -> Qsum l <= inject_Z (Z.of_nat (length l)) * m.
Proof.
  induction l as [|x l IH]; intros H; simpl.
  - change (inject_Z 0) with 0. lra.
  - change (fold_right Qplus 0 l) with (Qsum l).
    rewrite Zpos_P_of_succ_nat, <- Z.add_1_r, inject_Z_plus.
    change (inject_Z 1) with 1.
    assert (Hx := H x (or_introl eq_refl)).
    assert (Hl := IH (fun y Hy => H y (or_intror Hy))). lra.
Qed.

Lemma Qsum_nonneg (l : list Q) : (forall x, In x l -> 0 <= x) -> 0 <= Qsum l.
Proof.
  induction l as [|x l IH]; intros H; simpl; [lra|].
  change (fold_right Qplus 0 l) with (Qsum l).
  assert (Hx := H x (or_introl eq_refl)).
  assert (Hl := IH (fun y Hy => H y (or_intror Hy))). lra.
Qed.

Lemma segment_distances_length (cur : Point) (route : list Stop) :
  length (segment_distances calculateDistance cur route) = length route.
Proof.
  revert cur. induction route as [|s route IH]; intros cur; simpl; [reflexivity|].
  rewrite IH. reflexivity.
Qed.

(** In mixed mode (any mode other than ['walking'] and ['subway']) a
    route of [n] stops takes at most 15 minutes and costs between 0 and
    3.00 per stop, whatever the distances: less than the ['subway']
    estimate of [15 n + 20] minutes and [3.00 (n + 1)]. *)
Theorem mixed_stats_bounds (start : Point) (route : list Stop)
    (transportMode : option string) :
  transportMode <> Some "walking"%string ->
  transportMode <> Some "subway"%string ->
  let st := calculateRouteStats calculateDistance start route transportMode in
  let n := Z.of_nat (length route) in
  (totalTime st <= 15 * n)%Z /\ 0 <= totalCost st <= inject_Z (3 * n).
Proof.
  intros Hw Hs. cbn zeta.
  assert (Hmode : String.eqb (match transportMode with None => "mixed"%string | Some m => m end)
                    "walking" = false /\
                  String.eqb (match transportMode with None => "mixed"%string | Some m => m end)
                    "subway" = false).
  { destruct transportMode as [m|]; [|split; reflexivity].
    split; apply String.eqb_neq; intros ->; [apply Hw | apply Hs]; reflexivity. }
  destruct route as [|s0 rest].
  - cbn. split; [lia | split; apply Qle_refl].
  - unfold calculateRouteStats. cbv beta iota zeta.
    destruct Hmode as [E1 E2]. rewrite E1, E2. cbv beta iota.
    pose proof (mixed_loop_sum calculateDistance start (s0 :: rest) 0 0) as [H1 H2].
    destruct (mixed_loop calculateDistance start (s0 :: rest) 0 0) as [t c].
    cbn [fst snd totalTime totalCost] in *.
    set (segs := segment_distances calculateDistance start (s0 :: rest)) in *.
    set (n := Z.of_nat (length (s0 :: rest))).
    assert (Ln : length segs = length (s0 :: rest)) by apply segment_distances_length.
    assert (Tt : t <= inject_Z n * 15).
    { rewrite H1. unfold n. rewrite <- Ln.
      assert (Q := Qsum_le (map mixed_segment_time segs) 15).
      rewrite length_map in Q. enough (0 + Qsum (map mixed_segment_time segs)
        <= inject_Z (Z.of_nat (length segs)) * 15) by lra.
      rewrite Qplus_0_l. apply Q.
      intros x Hx. apply in_map_iff in Hx as (d & <- & _).
      unfold mixed_segment_time. destruct (Qlt_bool d (1 # 2)) eqn:E; [|lra].
      apply Qlt_bool_iff in E. change (d / 3 * 60) with (d * (1 # 3) * 60). lra. }
    assert (Tc : c <= inject_Z n * 3).
    { rewrite H2. unfold n. rewrite <- Ln.
      assert (Q := Qsum_le (map mixed_segment_cost segs) 3).
      rewrite length_map in Q. enough (0 + Qsum (map mixed_segment_cost segs)
        <= inject_Z (Z.of_nat (length segs)) * 3) by lra.
      rewrite Qplus_0_l. apply Q.
      intros x Hx. apply in_map_iff in Hx as (d & <- & _).
      unfold mixed_segment_cost. destruct (Qlt_bool d (1 # 2)); lra. }
    assert (Tc0 : 0 <= c).
    { rewrite H2. enough (0 <= Qsum (map mixed_segment_cost segs)) by lra.
      apply Qsum_nonneg. intros x Hx. apply in_map_iff in Hx as (d & <- & _).
      unfold mixed_segment_cost. destruct (Qlt_bool d (1 # 2)); lra. }
    split; [|split].
    + apply Math_round_le. rewrite inject_Z_mult. change (inject_Z 15) with 15. lra.
    + assert (R := Math_round_ge (c * 100) 0 ltac:(change (inject_Z 0) with 0; lra)).
      rewrite Zle_Qle in R. change (inject_Z 0) with 0 in R.
      change (?x / 100) with (x * (1 # 100)). lra.
    + assert (R := Math_round_le (c * 100) (300 * n)
                     ltac:(rewrite inject_Z_mult; change (inject_Z 300) with 300; lra)).
      rewrite Zle_Qle, inject_Z_mult in R. rewrite inject_Z_mult.
      change (inject_Z 300) with 300 in R. change (inject_Z 3) with 3.
      change (?x / 100) with (x * (1 # 100)). lra.
Qed.

(** *** findOptimalInsertionPoint *)

Lemma nth_error_skipn_hd (l : list Stop) (i : nat) :
  nth_error l i = hd_error (skipn i l).
Proof.
  revert l. induction i as [|i IH]; intros [|x l]; simpl; auto.
Qed.

(** The increase computed for candidate position [i] only depends on the
    neighbours of the insertion: with [p] the point reached after the
    first [i] stops, it is [d(p, new) + d(new, route[i]) - d(p, route[i])]
    inside the route, and [d(p, new)] at (or past) its end. *)
Theorem insertion_increase_local (start : Point) (route : list Stop) (newStore : Stop) (i : nat) :
  let p := last_point start (firstn i route) in
  let q := coordinates newStore in
  match nth_error route i with
  | Some s =>
      insertion_increase calculateDistance start route newStore i
      == dist calculateDistance p q + dist calculateDistance q (coordinates s)
         - dist calculateDistance p (coordinates s)
  | None =>
      insertion_increase calculateDistance start route newStore i == dist calculateDistance p q
  end.
Proof.
  cbn zeta. unfold insertion_increase, test_route.
  rewrite nth_error_skipn_hd.
  assert (Eb : calculateTotalDistance calculateDistance start route
     == calculateTotalDistance calculateDistance start (firstn i route)
        + calculateTotalDistance calculateDistance (last_point start (firstn i route))
            (skipn i route)).
  { rewrite <- calculateTotalDistance_app, firstn_skipn. reflexivity. }
  destruct (skipn i route) as [|s rest]; cbn [hd_error];
    rewrite calculateTotalDistance_app, Eb, !calculateTotalDistance_legs;
    unfold Qsum; simpl; ring.
Qed.

Section Metric.

Hypothesis dist_nonneg : forall a b : Point, 0 <= dist calculateDistance a b.
Hypothesis dist_triangle : forall a b c : Point,
  dist calculateDistance a c <= dist calculateDistance a b + dist calculateDistance b c.

(** When the distance is non-negative and satisfies the triangle
    inequality, inserting a store at any position never shortens the
    route: every candidate increase is at least 0. *)
Theorem insertion_increase_nonneg (start : Point) (route : list Stop) (newStore : Stop) (i : nat) :
  0 <= insertion_increase calculateDistance start route newStore i.
Proof.
  pose proof (insertion_increase_local start route newStore i) as H. cbn zeta in H.
  destruct (nth_error route i) as [s|]; rewrite H.
  - assert (T := dist_triangle (last_point start (firstn i route)) (coordinates newStore)
                   (coordinates s)). lra.
  - apply dist_nonneg.
Qed.

End Metric.

End Extras.

(** *** Instances of the further properties *)

Lemma meridian_distance_sym (a b : Point) :
  dist meridian_distance a b == dist meridian_distance b a.
Proof.
  unfold dist, meridian_distance. rewrite Qabs_Qminus. reflexivity.
Qed.

Lemma meridian_distance_nonneg (a b : Point) : 0 <= dist meridian_distance a b.
Proof.
  unfold dist, meridian_distance.
  assert (H := Qabs_nonneg (lat b - lat a)). lra.
Qed.

Lemma meridian_distance_triangle (a b c : Point) :
  dist meridian_distance a c <= dist meridian_distance a b + dist meridian_distance b c.
Proof.
  unfold dist, meridian_distance.
  assert (T := Qabs_triangle (lat b - lat a) (lat c - lat b)).
  assert (E : Qabs (lat c - lat a) == Qabs (lat b - lat a + (lat c - lat b)))
    by (apply Qabs_wd; ring).
  lra.
Qed.

Lemma optimize2Opt_unchanged_witness :
  snd (pass meridian_distance route_line) = false /\
  optimize2Opt meridian_distance route_line 100 = route_line.
Proof.
  split; [vm_compute; reflexivity|].
  apply (optimize2Opt_unchanged meridian_distance route_line 100).
  right. right. vm_compute. reflexivity.
Defined.

Lemma reverse_segment_involutive_witness :
  (1 <= 3)%nat /\ (3 < length route_c1)%nat /\
  reverse_segment (reverse_segment route_c1 1 3) 1 3 = route_c1.
Proof.
  split; [lia|]. split; [simpl; lia|].
  apply (reverse_segment_involutive route_c1 1 3); simpl; lia.
Defined.

Lemma two_opt_move_delta_witness :
  (forall a b : Point, dist meridian_distance a b == dist meridian_distance b a) /\
  (1 < 3)%nat /\ (3 + 1 < length route_c3)%nat /\
  calculateTotalDistance meridian_distance origin (reverse_segment route_c3 1 3)
  == calculateTotalDistance meridian_distance origin route_c3
     - current_dist meridian_distance route_c3 1 3 + swapped_dist meridian_distance route_c3 1 3.
Proof.
  split; [exact meridian_distance_sym|]. split; [lia|]. split; [simpl; lia|].
  apply (two_opt_move_delta meridian_distance meridian_distance_sym origin route_c3 1 3);
    simpl; lia.
Defined.

Lemma subway_stats_witness :
  route_c1 <> [] /\
  totalTime (calculateRouteStats flat_distance origin route_c1 (Some "subway"%string)) = 80%Z.
Proof.
  split; [discriminate|].
  apply (subway_stats flat_distance origin route_c1). discriminate.
Defined.

Lemma mixed_stats_bounds_witness :
  (None : option string) <> Some "walking"%string /\
  (None : option string) <> Some "subway"%string /\
  (totalTime (calculateRouteStats flat_distance origin route_c1 None) <= 60)%Z.
Proof.
  split; [discriminate|]. split; [discriminate|].
  apply (mixed_stats_bounds flat_distance origin route_c1 None); discriminate.
Defined.

Lemma insertion_increase_nonneg_witness :
  (forall a b : Point, 0 <= dist meridian_distance a b) /\
  (forall a b c : Point,
     dist meridian_distance a c <= dist meridian_distance a b + dist meridian_distance b c) /\
  0 <= insertion_increase meridian_distance origin route_c1 (stop_at "N"%string 5 5) 2.
Proof.
  split; [exact meridian_distance_nonneg|]. split; [exact meridian_distance_triangle|].
  apply (insertion_increase_nonneg meridian_distance meridian_distance_nonneg
           meridian_distance_triangle).
Defined.
